(** * Job alert bot: change detection and persistence

    A shallow embedding of [src/main.py] and [src/emailer.py].

    The program loads a set of known job identifiers from
    [data/known_jobs.json], fetches the current postings, classifies the
    postings whose identifier is not yet known as new, mails them, and
    writes the enlarged set back.

    Modelling choices:
    - a Python string is the sequence of bytes that encodes its characters
      in UTF-8, a lone surrogate being encoded like any other character;
      the order of the bytes is then the order of the characters;
    - a posting is a Python dict with string values: [gmap string string];
    - the values [json.load] produces are [pyval]; JSON numbers are the
      integers (floating point literals are outside the model);
    - a Python set of such values is [pyset]: its strings, its numbers
      (with the stored representative, since [True == 1]) and [None];
    - the data file is modelled by what [json.load] makes of its content:
      [Unparsable] when it raises [JSONDecodeError], [Unreadable r] when
      it raises another exception, [Parsed v] when it returns [v];
    - [MIMEText] encodes the body of the mail in UTF-8 and raises
      [UnicodeEncodeError] on a surrogate, as in CPython 3.11;
    - standard output accepts every string: a [print] never raises;
    - effects are explicit: a [world] holds the file system and the
      chronological log of observable events; a computation maps a world
      to a result (a value or a raised exception) and a world;
    - the scraper and the SMTP server are inputs of a run. *)

From Stdlib Require Import ZArith.
From stdpp Require Import gmap strings list sorting.

Set Warnings "-register-all,-clear-no-such-hyp".

(** ** Python values and sets *)

Module Py.

Inductive pyval :=
| PNone
| PBool (b : bool)
| PInt (z : Z)
| PStr (s : string)
| PList (l : list pyval)
| PDict (d : list (string * pyval)).

(** [bool(v)] *)
Definition truthy (v : pyval) : bool :=
  match v with
  | PNone => false
  | PBool b => b
  | PInt z => negb (z =? 0)%Z
  | PStr s => negb (String.eqb s EmptyString)
  | PList l => negb (bool_decide (l = []))
  | PDict d => negb (bool_decide (d = []))
  end.

(** [v != s] for a string literal [s]: only an equal string is equal. *)
Definition ne_str (v : pyval) (s : string) : bool :=
  match v with
  | PStr s' => negb (String.eqb s' s)
  | _ => true
  end.

Inductive exn :=
| TypeError
| JSONDecodeError
| UnicodeDecodeError
| ValueError
| RecursionError
| UnicodeEncodeError
| SMTPAuthenticationError
| SMTPException
| OtherException.

(** A byte that continues a character: [10xxxxxx]. *)
Definition continuation (c : Ascii.ascii) : bool :=
  (128 <=? Ascii.nat_of_ascii c) && (Ascii.nat_of_ascii c <? 192).

(** [s[:n]]: the first [n] characters of [s]. *)
Fixpoint cut (n : nat) (s : string) : string :=
  match s with
  | EmptyString => EmptyString
  | String c s' =>
      if continuation c then String c (cut n s')
      else
        match n with
        | 0 => EmptyString
        | S n' => String c (cut n' s')
        end
  end.

(** The first bytes of a surrogate, [U+D800] to [U+DFFF]: [ED] and then
    [A0] to [BF]. *)
Definition surrogate_start (c d : Ascii.ascii) : bool :=
  (Ascii.nat_of_ascii c =? 237) && (160 <=? Ascii.nat_of_ascii d) && (Ascii.nat_of_ascii d <? 192).

(** [s] holds a surrogate: [s.encode("utf-8")] raises
    [UnicodeEncodeError]. *)
Fixpoint has_surrogate (s : string) : bool :=
  match s with
  | EmptyString => false
  | String c s' =>
      match s' with
      | String d _ => surrogate_start c d
      | EmptyString => false
      end
      || has_surrogate s'
  end.

Inductive result (A : Type) :=
| Val (a : A)
| Exn (e : exn).
Global Arguments Val {A} a.
Global Arguments Exn {A} e.

(** A set of hashable values. Equal numbers are one element whatever
    their type: [nums] maps the numeric value to [true] when the stored
    object is a [bool] and to [false] when it is an [int]. *)
Record pyset := PySet {
  strs : gset string;
  nums : gmap Z bool;
  none : bool
}.

Definition empty : pyset := PySet ∅ ∅ false.

Definition of_ids (ids : gset string) : pyset := PySet ids ∅ false.

Definition add_str (s : string) (K : pyset) : pyset :=
  PySet ({[ s ]} ∪ strs K) (nums K) (none K).

(** The element already stored is kept. *)
Definition add_num (z : Z) (is_bool : bool) (K : pyset) : pyset :=
  match nums K !! z with
  | Some _ => K
  | None => PySet (strs K) (<[ z := is_bool ]> (nums K)) (none K)
  end.

(** [K.add(v)]; lists and dicts are unhashable. *)
Definition add (v : pyval) (K : pyset) : result pyset :=
  match v with
  | PNone => Val (PySet (strs K) (nums K) true)
  | PBool b => Val (add_num (if b then 1 else 0) true K)
  | PInt z => Val (add_num z false K)
  | PStr s => Val (add_str s K)
  | PList _ | PDict _ => Exn TypeError
  end.

(** [set(l)] *)
Fixpoint set_from (l : list pyval) (K : pyset) : result pyset :=
  match l with
  | [] => Val K
  | v :: l' =>
      match add v K with
      | Val K' => set_from l' K'
      | Exn e => Exn e
      end
  end.

Definition set_ (l : list pyval) : result pyset := set_from l empty.

(** [len(K)] *)
Definition len (K : pyset) : nat :=
  size (strs K) + size (nums K) + (if none K then 1 else 0).

Definition str_le (a b : string) : Prop := String.leb a b.

Definition num_le (a b : Z * bool) : Prop := (a.1 ≤ b.1)%Z.

Global Instance str_le_dec a b : Decision (str_le a b).
Proof. unfold str_le. apply _. Defined.

Global Instance num_le_dec a b : Decision (num_le a b).
Proof. unfold num_le. apply _. Defined.

Definition num_val (p : Z * bool) : pyval :=
  if p.2 then PBool (bool_decide (p.1 ≠ 0%Z)) else PInt p.1.

(** [sorted(list(K))]. Strings compare with strings and numbers with
    numbers; any other comparison raises [TypeError]. A list of at most
    one element is returned without a comparison. *)
Definition sorted (K : pyset) : result (list pyval) :=
  if none K then
    if bool_decide (strs K = ∅ ∧ nums K = ∅) then Val [PNone]
    else Exn TypeError
  else if bool_decide (nums K = ∅) then
    Val (PStr <$> merge_sort str_le (elements (strs K)))
  else if bool_decide (strs K = ∅) then
    Val (num_val <$> merge_sort num_le (map_to_list (nums K)))
  else Exn TypeError.

End Py.
Export Py.

(** ** The world: file system, event log, exceptions *)

Module Eff.

(** A posting as the scraper yields it: a dict with the keys ["id"],
    ["title"], ["location"] and ["link"], any of which may be missing. *)
Abbreviation job := (gmap string string).

(** Text written by [print]; one constructor per [print] call of the
    sources, carrying the values that are interpolated. *)
Inductive message :=
| MCreatedDataDir
| MCouldNotParse
| MSaved (n : nat)
| MRule
| MStarting
| MLoaded (n : nat)
| MScraping
| MNoJobsFound
| MThisCouldMean
| MSiteChanged
| MNetworkIssues
| MPageNotLoaded
| MFound (n : nat)
| MNew (title : string)
| MFoundNew (n : nat)
| MItemTitle (i : nat) (title : string)
| MItemLocation (location : string)
| MItemLink (link : string)
| MSendingNotification
| MEmailSent
| MEmailFailedOrSkipped
| MUpdatedDatabase
| MNoNewJobs
| MBlankRule
| MComplete
| MMissingVariable (name : string)
| MPreparing (receiver : string)
| MNumberToNotify (n : nat)
| MConnecting
| MAuthenticating
| MSendingEmail
| MSentTo (receiver : string)
| MAuthenticationFailed
| MUseAppPassword
| MGenerateOneAt
| MSmtpError
| MFailedToSend.

(** The mail handed to the server; the HTML markup around the cards is
    fixed text. *)
Record mail := Mail {
  mail_from : string;
  mail_to : string;
  mail_count : nat;
  mail_cards : list (string * string * string)
}.

Inductive smtp_step :=
| SConnect
| SStartTls
| SLogin (user password : string)
| SSendmail (msg : mail)
| SQuit.

Inductive event :=
| Print (m : message)
| Makedirs
| Call_load_known_jobs
| Call_get_latest_jobs
| Call_send_email (new_jobs : list job)
| Call_save_known_jobs (known_jobs : pyset)
| Smtp (step : smtp_step).

(** The exceptions of [json.load] other than [JSONDecodeError]: the bytes
    of the file are no text, an integer has too many digits, the nesting
    is too deep. *)
Inductive read_failure :=
| NotText
| IntegerTooLong
| NestedTooDeep.

Definition read_exn (r : read_failure) : exn :=
  match r with
  | NotText => UnicodeDecodeError
  | IntegerTooLong => ValueError
  | NestedTooDeep => RecursionError
  end.

(** What [json.load] makes of the content of the data file. *)
Inductive document :=
| Unparsable
| Unreadable (r : read_failure)
| Parsed (data : pyval).

(** The data directory, and in it the data file when it exists. *)
Inductive fs :=
| NoDir
| Dir (data_file : option document).

Record world := World {
  files : fs;
  log : list event
}.

Definition M (A : Type) : Type := world → result A * world.

Global Instance M_ret : MRet M := λ A a w, (Val a, w).

Global Instance M_bind : MBind M := λ A B f m w,
  match m w with
  | (Val a, w') => f a w'
  | (Exn e, w') => (Exn e, w')
  end.

Definition raise {A} (e : exn) : M A := λ w, (Exn e, w).

Definition lift {A} (r : result A) : M A := λ w, (r, w).

(** [try: body except ...]: [handler e] is the clause that matches [e],
    if any. *)
Definition try_ {A} (body : M A) (handler : exn → option (M A)) : M A :=
  λ w,
    match body w with
    | (Val a, w') => (Val a, w')
    | (Exn e, w') =>
        match handler e with
        | Some h => h w'
        | None => (Exn e, w')
        end
    end.

Definition emit (e : event) : M unit :=
  λ w, (Val tt, World (files w) (log w ++ [e])).

Definition print (m : message) : M unit := emit (Print m).

Definition emit_all (es : list event) : M unit :=
  λ w, (Val tt, World (files w) (log w ++ es)).

Definition get_files : M fs := λ w, (Val (files w), w).

Definition put_files (f : fs) : M unit := λ w, (Val tt, World f (log w)).

(** The outside of a run: what the scraper returns, the process
    environment, and for each SMTP call the exception it raises, if any. *)
Record outside := Outside {
  scraped : list job;
  environ : gmap string string;
  server : smtp_step → option exn
}.

End Eff.
Export Eff.

(** ** [src/main.py]: the store *)

Module Store.

Definition ensure_data_dir : M unit :=
  f ← get_files;
  match f with
  | NoDir =>
      emit Makedirs;;
      put_files (Dir None);;
      print MCreatedDataDir
  | Dir _ => mret tt
  end.

Definition json_load (doc : document) : M pyval :=
  match doc with
  | Unparsable => raise JSONDecodeError
  | Unreadable r => raise (read_exn r)
  | Parsed data => mret data
  end.

(** [[job_id for job_id in data if job_id and job_id != "unknown_id"]] *)
Definition valid_ids (data : list pyval) : list pyval :=
  List.filter (λ job_id, truthy job_id && ne_str job_id "unknown_id") data.

Definition load_known_jobs : M pyset :=
  emit Call_load_known_jobs;;
  ensure_data_dir;;
  f ← get_files;
  match f with
  | Dir (Some doc) =>
      try_
        (data ← json_load doc;
         match data with
         | PList l => lift (set_ (valid_ids l))
         | _ => mret Py.empty
         end)
        (λ e,
           match e with
           | JSONDecodeError => Some (print MCouldNotParse;; mret Py.empty)
           | _ => None
           end)
  | _ => mret Py.empty
  end.

(** [open(DATA_FILE, "w")] empties the file before [sorted] runs; an
    empty file does not parse. *)
Definition save_known_jobs (known_jobs : pyset) : M unit :=
  emit (Call_save_known_jobs known_jobs);;
  ensure_data_dir;;
  put_files (Dir (Some Unparsable));;
  l ← lift (sorted known_jobs);
  put_files (Dir (Some (Parsed (PList l))));;
  print (MSaved (len known_jobs)).

End Store.
Export Store.

(** ** [src/emailer.py] *)

Module Emailer.

(** [job.get(key, default)] *)
Definition get (j : job) (key default : string) : string :=
  match j !! key with
  | Some v => v
  | None => default
  end.

Definition card (j : job) : string * string * string :=
  (get j "title" "Unknown Role",
   get j "location" "Unknown Location",
   get j "link" "#").

(** A card whose title, location or link holds a surrogate. *)
Definition unencodable (c : string * string * string) : bool :=
  has_surrogate c.1.1 || has_surrogate c.1.2 || has_surrogate c.2.

(** [MIMEText(html_content, "html")]: the body, fixed text around the
    cards, is encoded in UTF-8. *)
Definition mime_text (cards : list (string * string * string)) : M unit :=
  if existsb unencodable cards then raise UnicodeEncodeError else mret tt.

Definition smtp (o : outside) (step : smtp_step) : M unit :=
  emit (Smtp step);;
  match server o step with
  | Some e => raise e
  | None => mret tt
  end.

(** [os.environ.get(name)] when it is truthy. *)
Definition getenv (o : outside) (name : string) : option string :=
  match environ o !! name with
  | Some v => if String.eqb v EmptyString then None else Some v
  | None => None
  end.

Definition send_email (o : outside) (new_jobs : list job) : M bool :=
  emit (Call_send_email new_jobs);;
  match getenv o "EMAIL_ADDRESS" with
  | None => print (MMissingVariable "EMAIL_ADDRESS");; mret false
  | Some sender_email =>
  match getenv o "EMAIL_PASSWORD" with
  | None => print (MMissingVariable "EMAIL_PASSWORD");; mret false
  | Some sender_password =>
  match getenv o "NOTIFY_EMAIL" with
  | None => print (MMissingVariable "NOTIFY_EMAIL");; mret false
  | Some receiver_email =>
      print (MPreparing receiver_email);;
      print (MNumberToNotify (length new_jobs));;
      let msg :=
        Mail sender_email receiver_email (length new_jobs) (card <$> new_jobs) in
      mime_text (card <$> new_jobs);;
      try_
        (print MConnecting;;
         smtp o SConnect;;
         smtp o SStartTls;;
         print MAuthenticating;;
         smtp o (SLogin sender_email sender_password);;
         print MSendingEmail;;
         smtp o (SSendmail msg);;
         smtp o SQuit;;
         print (MSentTo receiver_email);;
         mret true)
        (λ e,
           match e with
           | SMTPAuthenticationError =>
               Some (print MAuthenticationFailed;;
                     print MUseAppPassword;;
                     print MGenerateOneAt;;
                     mret false)
           | SMTPException => Some (print MSmtpError;; mret false)
           | _ => Some (print MFailedToSend;; mret false)
           end)
  end end end.

End Emailer.
Export Emailer.

(** ** [src/main.py]: the run *)

Module Main.

(** The state of the loop over [current_jobs]. *)
Record diff_state := DiffState {
  new_jobs : list job;
  known_jobs : pyset;
  printed : list message
}.

(** [job_id and job_id not in known_jobs] decides; a truthy [job_id] is
    added to [known_jobs] in both branches. *)
Definition diff_body (st : diff_state) (j : job) : diff_state :=
  match j !! "id" with
  | Some job_id =>
      if negb (String.eqb job_id EmptyString) then
        if bool_decide (job_id ∉ strs (known_jobs st)) then
          DiffState (new_jobs st ++ [j])
                    (add_str job_id (known_jobs st))
                    (printed st ++ [MNew (cut 50 (get j "title" "Unknown"))])
        else
          DiffState (new_jobs st) (add_str job_id (known_jobs st)) (printed st)
      else st
  | None => st
  end.

(** Lines 67 to 78: the loop, from an empty [new_jobs]. *)
Definition diff (current_jobs : list job) (known : pyset) : diff_state :=
  foldl diff_body (DiffState [] known []) current_jobs.

Definition get_latest_jobs (o : outside) : M (list job) :=
  emit Call_get_latest_jobs;;
  mret (scraped o).

Fixpoint list_new_jobs (i : nat) (jobs : list job) : M unit :=
  match jobs with
  | [] => mret tt
  | j :: rest =>
      print (MItemTitle i (get j "title" "Unknown Position"));;
      print (MItemLocation (get j "location" "N/A"));;
      print (MItemLink (get j "link" "N/A"));;
      list_new_jobs (S i) rest
  end.

Definition main (o : outside) : M unit :=
  print MRule;;
  print MStarting;;
  print MRule;;
  known ← load_known_jobs;
  print (MLoaded (len known));;
  print MScraping;;
  current_jobs ← get_latest_jobs o;
  match current_jobs with
  | [] =>
      print MNoJobsFound;;
      print MThisCouldMean;;
      print MSiteChanged;;
      print MNetworkIssues;;
      print MPageNotLoaded
  | _ :: _ =>
      print (MFound (length current_jobs));;
      let d := diff current_jobs known in
      emit_all (Print <$> printed d);;
      match new_jobs d with
      | _ :: _ =>
          print (MFoundNew (length (new_jobs d)));;
          list_new_jobs 1 (new_jobs d);;
          print MSendingNotification;;
          email_sent ← send_email o (new_jobs d);
          (if email_sent : bool then print MEmailSent
           else print MEmailFailedOrSkipped);;
          save_known_jobs (known_jobs d);;
          print MUpdatedDatabase
      | [] =>
          print MNoNewJobs;;
          save_known_jobs (known_jobs d)
      end;;
      print MBlankRule;;
      print MComplete;;
      print MRule
  end.

(** A process per run: the log starts empty, the files are those the
    previous run left. *)
Definition run (o : outside) (f : fs) : result unit * world :=
  main o (World f []).


End Main.
Export Main.

(** ** Vocabulary of the properties *)

Module Spec.

Definition sentinel : string := "unknown_id".

(** The identifier of a posting when it is present and not empty. *)
Definition posting_id (j : job) : option string :=
  match j !! "id" with
  | Some i => if String.eqb i EmptyString then None else Some i
  | None => None
  end.

(** The identifiers of the postings that have one. *)
Definition ids (P : list job) : gset string := list_to_set (omap posting_id P).

(** The test of the loop for the posting at index [k], in the state the
    loop has reached after the [k] postings before it. *)
Definition classified_new (K : pyset) (P : list job) (k : nat) : bool :=
  match P !! k with
  | Some j =>
      match posting_id j with
      | Some i => bool_decide (i ∉ strs (known_jobs (diff (take k P) K)))
      | None => false
      end
  | None => false
  end.

(** The postings classified as new, by increasing index. *)
Definition select_new (K : pyset) (P : list job) : list job :=
  omap (λ k, if classified_new K P k then P !! k else None)
       (seq 0 (length P)).

(** No empty and no sentinel identifier. *)
Definition clean (K : pyset) : Prop :=
  (EmptyString ∉ strs K) ∧ (sentinel ∉ strs K).

(** The content of the data file, if there is one. *)
Definition stored (f : fs) : option document :=
  match f with
  | NoDir => None
  | Dir d => d
  end.

(** The files once the data directory has been made. *)
Definition created (f : fs) : fs :=
  match f with
  | NoDir => Dir None
  | Dir d => Dir d
  end.

(** The arguments of the calls of [save_known_jobs] in a log, in order. *)
Definition saves (l : list event) : list pyset :=
  omap (λ e, match e with Call_save_known_jobs K => Some K | _ => None end) l.

(** The arguments of the calls of [send_email] in a log, in order. *)
Definition mails (l : list event) : list (list job) :=
  omap (λ e, match e with Call_send_email new => Some new | _ => None end) l.

(** The calls of the scraper in a log. *)
Definition fetches (l : list event) : nat :=
  length (omap (λ e, match e with Call_get_latest_jobs => Some tt | _ => None end) l).

(** The lines the loop has printed, in order. *)
Definition announced (l : list event) : list string :=
  omap (λ e, match e with Print (MNew t) => Some t | _ => None end) l.

(** What a run prints and does after an empty fetch. *)
Definition no_jobs_diagnostic : list event :=
  [Print MNoJobsFound; Print MThisCouldMean; Print MSiteChanged;
   Print MNetworkIssues; Print MPageNotLoaded].

(** What [load_known_jobs] returns on given files. *)
Definition loaded (f : fs) : result pyset := (load_known_jobs (World f [])).1.


Definition has_sentinel (P : list job) : Prop :=
  ∃ j, j ∈ P ∧ j !! "id" = Some sentinel.



(** An entry that [set] accepts. *)
Definition scalar (v : pyval) : bool :=
  match v with
  | PList _ | PDict _ => false
  | _ => true
  end.

(** The title the loop prints for a new posting: its first fifty
    characters. *)
Definition shown_title (j : job) : string := cut 50 (get j "title" "Unknown").

(** The line the loop prints for a new posting. *)
Definition title_line (j : job) : message := MNew (shown_title j).

(** The mail for these postings can be built: no title, location or link
    holds a surrogate. *)
Definition buildable (new : list job) : Prop :=
  existsb unencodable (card <$> new) = false.

(** A run that has called [save_known_jobs] with [K]: it ends as
    [sorted] does, with the sorted set in the data file or with the file
    emptied. *)
Definition saved (r : result unit * world) (K : pyset) : Prop :=
  saves (log r.2) = [K]
  ∧ match sorted K with
    | Val l => r.1 = Val tt ∧ files r.2 = Dir (Some (Parsed (PList l)))
    | Exn e => r.1 = Exn e ∧ files r.2 = Dir (Some Unparsable)
    end.

(** Events that are no call of the scraper, the notifier or
    [save_known_jobs] and no line of the loop. *)
Definition quiet (evs : list event) : Prop :=
  saves evs = [] ∧ mails evs = [] ∧ fetches evs = 0 ∧ announced evs = [].

End Spec.
Export Spec.

(** ** Sample inputs *)

Module Examples.

Definition posting (id title : string) : job :=
  <[ "title" := title ]> {[ "id" := id ]}.

Definition posting_without_id (title : string) : job := {[ "title" := title ]}.

Definition job_a : job := posting "A" "Engineer".
Definition job_b : job := posting "B" "Researcher".
Definition job_unknown : job := posting "unknown_id" "Designer".

(** The character [U+D800], a lone surrogate: bytes [ED A0 80]. *)
Definition lone_surrogate : string :=
  String (Ascii.ascii_of_nat 237)
    (String (Ascii.ascii_of_nat 160)
       (String (Ascii.ascii_of_nat 128) EmptyString)).

(** A posting whose title cannot be encoded. *)
Definition job_surrogate : job := posting "S" lone_surrogate.

Definition configured : gmap string string :=
  {[ "EMAIL_ADDRESS" := "bot@example.org";
     "EMAIL_PASSWORD" := "secret";
     "NOTIFY_EMAIL" := "me@example.org" ]}.

Definition accepting (s : smtp_step) : option exn := None.


(** The notifier is configured, the server accepts everything, and the
    scraper returns the posting whose title cannot be encoded. *)
Definition failing_notification : outside :=
  Outside [job_surrogate] configured accepting.

(** A data file whose array holds an array. *)
Definition nested_array : fs :=
  Dir (Some (Parsed (PList [PList [PStr "a"]]))).

End Examples.
Export Examples.

(** ** Further observations on a log and on the new postings *)

Module Observations.

(** The calls made to the SMTP server, in order. *)
Definition smtp_steps (l : list event) : list smtp_step :=
  omap (λ e, match e with Smtp s => Some s | _ => None end) l.

(** The lines printed, in order. *)
Definition printed_lines (l : list event) : list message :=
  omap (λ e, match e with Print m => Some m | _ => None end) l.

(** The identifiers of the new postings, in order. *)
Definition new_ids (new : list job) : list string := omap posting_id new.

(** The three variables the notifier needs are set and not empty. *)
Definition configured_as (o : outside) (a p r : string) : Prop :=
  getenv o "EMAIL_ADDRESS" = Some a
  ∧ getenv o "EMAIL_PASSWORD" = Some p
  ∧ getenv o "NOTIFY_EMAIL" = Some r.

(** The mail [send_email] builds for the new postings. *)
Definition mail_for (a r : string) (new : list job) : mail :=
  Mail a r (length new) (card <$> new).


(** A known set that holds a string and a number. *)
Definition mixed : pyset := PySet {[ "A" ]} {[ 1%Z := false ]} false.

End Observations.
Export Observations.

(** ** The loop over the current postings *)

Section Diff.

Implicit Types (K : pyset) (P : list job) (j : job) (i : string).

Lemma posting_id_Some j i :
  posting_id j = Some i ↔ j !! "id" = Some i ∧ i ≠ EmptyString.
Proof.
  unfold posting_id. destruct (j !! "id") as [i'|]; [|by intuition].
  destruct (String.eqb i' EmptyString) eqn:E.
  - apply String.eqb_eq in E. split; [done|]. intros [[= ->] ?]. done.
  - apply String.eqb_neq in E. split.
    + by intros [= ->].
    + by intros [[= ->] _].
Qed.

Lemma diff_body_known st j :
  known_jobs (diff_body st j) =
    match posting_id j with
    | Some i => add_str i (known_jobs st)
    | None => known_jobs st
    end.
Proof.
  unfold diff_body, posting_id. destruct (j !! "id") as [i|]; [|done].
  destruct (String.eqb i EmptyString); simpl; [done|]. by case_bool_decide.
Qed.

Lemma diff_body_new st j :
  new_jobs (diff_body st j) =
    new_jobs st ++
    match posting_id j with
    | Some i => if bool_decide (i ∉ strs (known_jobs st)) then [j] else []
    | None => []
    end.
Proof.
  unfold diff_body, posting_id. destruct (j !! "id") as [i|].
  - destruct (String.eqb i EmptyString); simpl; [by rewrite app_nil_r|].
    case_bool_decide; simpl; [done|by rewrite app_nil_r].
  - by rewrite app_nil_r.
Qed.

(** The loop on [P ++ [j]] is the loop on [P] followed by one step. *)
Lemma diff_snoc P j K : diff (P ++ [j]) K = diff_body (diff P K) j.
Proof. unfold diff. by rewrite foldl_app. Qed.

Lemma foldl_diff_known P st :
  known_jobs (foldl diff_body st P) =
    PySet (strs (known_jobs st) ∪ ids P) (nums (known_jobs st))
          (none (known_jobs st)).
Proof.
  revert st. induction P as [|j P IH]; intros st; simpl.
  - unfold ids. simpl. rewrite union_empty_r_L. by destruct (known_jobs st).
  - rewrite IH, diff_body_known. unfold ids. simpl.
    destruct (posting_id j) as [i|]; simpl; [|done].
    f_equal. set_solver.
Qed.

Lemma diff_known P K :
  known_jobs (diff P K) = PySet (strs K ∪ ids P) (nums K) (none K).
Proof. unfold diff. by rewrite foldl_diff_known. Qed.

Lemma foldl_diff_new P st :
  new_jobs (foldl diff_body st P) =
    new_jobs st ++ new_jobs (diff P (known_jobs st)).
Proof.
  revert st. induction P as [|j P IH] using rev_ind; intros st.
  - simpl. by rewrite app_nil_r.
  - rewrite diff_snoc, foldl_app. simpl.
    rewrite !diff_body_new, IH, <- (assoc_L (++)). do 3 f_equal.
    by rewrite foldl_diff_known, diff_known.
Qed.

(** One step from the front. *)
Lemma diff_cons_new j P K :
  new_jobs (diff (j :: P) K) =
    match posting_id j with
    | Some i =>
        (if bool_decide (i ∉ strs K) then [j] else [])
        ++ new_jobs (diff P (add_str i K))
    | None => new_jobs (diff P K)
    end.
Proof.
  unfold diff at 1. simpl. rewrite foldl_diff_new, diff_body_new, diff_body_known.
  simpl. by destruct (posting_id j).
Qed.

Lemma elem_of_ids P i :
  i ∈ ids P ↔ ∃ j, j ∈ P ∧ j !! "id" = Some i ∧ i ≠ EmptyString.
Proof.
  unfold ids. rewrite elem_of_list_to_set, list_elem_of_omap.
  by setoid_rewrite posting_id_Some.
Qed.

Lemma diff_new_fresh P K j i :
  j ∈ new_jobs (diff P K) → j !! "id" = Some i → (i ∉ strs K) ∧ i ≠ EmptyString.
Proof.
  revert K. induction P as [|j0 P IH]; intros K Hin Hid.
  { by apply elem_of_nil in Hin. }
  rewrite diff_cons_new in Hin.
  destruct (posting_id j0) as [i0|] eqn:E0; [|by eapply IH].
  apply elem_of_app in Hin as [Hin|Hin].
  - case_bool_decide; [|by apply elem_of_nil in Hin].
    apply list_elem_of_singleton in Hin as ->.
    apply posting_id_Some in E0 as [E0 ?]. by simplify_eq.
  - destruct (IH _ Hin Hid) as [Hn ?]. split; [|done].
    unfold add_str in Hn. simpl in Hn. set_solver.
Qed.

Lemma diff_new_nil P K : ids P ⊆ strs K → new_jobs (diff P K) = [].
Proof.
  revert K. induction P as [|j P IH]; intros K Hsub; [done|].
  rewrite diff_cons_new. unfold ids in Hsub. simpl in Hsub.
  destruct (posting_id j) as [i|]; [|by apply IH].
  rewrite bool_decide_eq_false_2 by set_solver. simpl.
  apply IH. unfold add_str. simpl. set_solver.
Qed.

Lemma diff_new_sublist P K : new_jobs (diff P K) `sublist_of` P.
Proof.
  revert K. induction P as [|j P IH]; intros K; [done|].
  rewrite diff_cons_new. destruct (posting_id j) as [i|].
  - case_bool_decide; simpl; [by apply sublist_skip|by apply sublist_cons].
  - by apply sublist_cons.
Qed.

End Diff.

(** Decide a closed proposition by evaluation. *)
Ltac by_computation := apply (bool_decide_unpack _); vm_compute; exact I.

Ltac exec :=
  cbv [load_known_jobs save_known_jobs ensure_data_dir json_load read_exn
       get_latest_jobs send_email smtp try_ lift raise emit emit_all print
       get_files put_files mbind M_bind mret M_ret files log].

Ltac exec_main :=
  cbv [main run get_latest_jobs emit emit_all print
       mbind M_bind mret M_ret].

(** Gather the events a computation has appended to the log. *)
Ltac log_norm := rewrite <- ?(assoc_L (++)); simpl.

(** ** The store, the notifier and the run as log transformers *)

Section Effects.

Implicit Types (w : world) (f : fs) (K : pyset) (o : outside).



Lemma quiet_nil : quiet [].
Proof. done. Qed.

Lemma quiet_app evs1 evs2 : quiet evs1 → quiet evs2 → quiet (evs1 ++ evs2).
Proof.
  unfold quiet, saves, mails, fetches, announced.
  rewrite !omap_app, !length_app.
  intros (-> & -> & -> & ->) (-> & -> & -> & ->). done.
Qed.


Lemma set_from_raises l K e : set_from l K = Exn e → e = TypeError.
Proof.
  revert K. induction l as [|v l IH]; intros K; simpl; [done|].
  destruct v; simpl; eauto; congruence.
Qed.

Lemma ensure_data_dir_spec w :
  ∃ evs, ensure_data_dir w = (Val tt, World (created (files w)) (log w ++ evs))
         ∧ quiet evs.
Proof.
  destruct w as [[|d] l]; exec.
  - eexists. log_norm. split; [reflexivity|done].
  - exists []. by rewrite app_nil_r.
Qed.

Lemma load_spec w :
  ∃ evs, load_known_jobs w
         = (loaded (files w), World (created (files w)) (log w ++ evs))
         ∧ quiet evs.
Proof.
  unfold loaded. destruct w as [[|[[|r|v]|]] l]; exec.
  - eexists. log_norm. split; [reflexivity|done].
  - eexists. log_norm. split; [reflexivity|done].
  - destruct r; (eexists; split; [reflexivity|done]).
  - destruct v; try (eexists; split; [reflexivity|done]).
    destruct (set_ (valid_ids l0)) as [K|e] eqn:E.
    + eexists; (split; [reflexivity|done]).
    + apply set_from_raises in E as ->. eexists; (split; [reflexivity|done]).
  - eexists. split; [reflexivity|done].
Qed.

Lemma save_spec K w :
  ∃ evs, save_known_jobs K w
         = match sorted K with
           | Val l => (Val tt, World (Dir (Some (Parsed (PList l))))
                                     (log w ++ Call_save_known_jobs K :: evs))
           | Exn e => (Exn e, World (Dir (Some Unparsable))
                                    (log w ++ Call_save_known_jobs K :: evs))
           end
         ∧ quiet evs.
Proof.
  destruct w as [[|d] l]; exec; destruct (sorted K);
    eexists; log_norm; (split; [reflexivity|done]).
Qed.


Lemma list_new_jobs_spec i jobs w :
  ∃ evs, list_new_jobs i jobs w = (Val tt, World (files w) (log w ++ evs))
         ∧ quiet evs.
Proof.
  revert i w. induction jobs as [|j jobs IH]; intros i w.
  - exists []. simpl. rewrite app_nil_r. by destruct w.
  - simpl. cbv [emit print mbind M_bind files log].
    edestruct IH as (evs & -> & Hq). simpl.
    eexists. rewrite <- !(assoc_L (++)). simpl. split; [reflexivity|].
    by apply (quiet_app [_; _; _]).
Qed.

(** [send_email] returns a boolean, or raises [UnicodeEncodeError] when
    the mail cannot be built; in both cases it only adds to the log. *)
Lemma send_email_spec o new w :
  ∃ r evs, send_email o new w
           = (r, World (files w) (log w ++ Call_send_email new :: evs))
           ∧ quiet evs
           ∧ ((∃ b, r = Val b) ∨ r = Exn UnicodeEncodeError ∧ ¬ buildable new).
Proof.
  destruct w as [f l].
  cbv [send_email mime_text emit print raise mbind M_bind mret M_ret files log].
  destruct (getenv o "EMAIL_ADDRESS") as [a|];
    [|eexists _, _; rewrite <- ?(assoc_L (++)); simpl;
      split_and!; [reflexivity|done|left; by eexists]].
  destruct (getenv o "EMAIL_PASSWORD") as [p|];
    [|eexists _, _; rewrite <- ?(assoc_L (++)); simpl;
      split_and!; [reflexivity|done|left; by eexists]].
  destruct (getenv o "NOTIFY_EMAIL") as [r|];
    [|eexists _, _; rewrite <- ?(assoc_L (++)); simpl;
      split_and!; [reflexivity|done|left; by eexists]].
  destruct (existsb unencodable (card <$> new)) eqn:Hb.
  { eexists _, _; rewrite <- ?(assoc_L (++)); simpl.
    split_and!; [reflexivity|done|right]. split; [done|].
    unfold buildable. by rewrite Hb. }
  cbv [try_ smtp raise emit print mbind M_bind mret M_ret files log].
  repeat match goal with
  | |- context [server o ?s] => destruct (server o s) as [[]|]
  end;
  eexists _, _; rewrite <- ?(assoc_L (++)); simpl;
    (split_and!; [reflexivity|done|left; by eexists]).
Qed.
End Effects.

(** Use the specification of the next call of a function of the store,
    of the notifier or of the listing loop. *)
Ltac call_spec :=
  match goal with
  | |- context [load_known_jobs ?w] =>
      let E := fresh "E" in
      destruct (load_spec w) as (? & E & ?); rewrite E; clear E
  | |- context [list_new_jobs ?i ?l ?w] =>
      let E := fresh "E" in
      destruct (list_new_jobs_spec i l w) as (? & E & ?); rewrite E; clear E
  | |- context [send_email ?o ?l ?w] =>
      let E := fresh "E" in
      destruct (send_email_spec o l w) as (? & ? & E & ? & ?); rewrite E;
      clear E
  | |- context [save_known_jobs ?K ?w] =>
      let E := fresh "E" in
      destruct (save_spec K w) as (? & E & ?); rewrite E; clear E
  end;
  cbv beta iota; cbn [files log].

(** Read the calls off a log built by appending. *)
Ltac projections :=
  repeat match goal with
  | H : quiet _ |- _ => destruct H as (? & ? & ? & ?)
  end;
  unfold saves, mails, fetches, announced in *;
  rewrite ?omap_app, ?length_app; cbn [omap list_omap length app];
  repeat match goal with
  | H : omap _ _ = _ |- _ => rewrite ?H; clear H
  | H : length (omap _ _) = _ |- _ => rewrite ?H; clear H
  end;
  cbn [length app Nat.add]; rewrite ?app_nil_r.

Section Run.
Implicit Types (w : world) (f : fs) (K : pyset) (o : outside).

Lemma diff_printed P K :
  printed (diff P K) = title_line <$> new_jobs (diff P K).
Proof.
  induction P as [|j P IH] using rev_ind; [done|].
  rewrite diff_snoc. unfold diff_body at 1 2.
  destruct (j !! "id") as [i|]; [|done].
  destruct (String.eqb i EmptyString); simpl; [done|].
  case_bool_decide; simpl; [|done].
  by rewrite fmap_app, IH.
Qed.

Lemma prints_projections msgs :
  saves (Print <$> msgs) = [] ∧ mails (Print <$> msgs) = []
  ∧ fetches (Print <$> msgs) = 0.
Proof.
  unfold saves, mails, fetches.
  split_and!; induction msgs as [|m msgs IH]; simpl; auto.
Qed.

Lemma announced_title_lines (new : list job) :
  announced (Print <$> (title_line <$> new)) = shown_title <$> new.
Proof. unfold announced. induction new as [|j new IH]; [done|]. simpl. by f_equal. Qed.


Lemma run_no_jobs o f :
  scraped o = [] →
  ∃ evs,
    run o f = match loaded f with
              | Val K =>
                  (Val tt,
                   World (created f)
                         (evs ++ Call_get_latest_jobs :: no_jobs_diagnostic))
              | Exn e => (Exn e, World (created f) evs)
              end
    ∧ quiet evs.
Proof.
  intros Hs. exec_main. cbn [files log].
  match goal with
  | |- context [load_known_jobs ?w] => destruct (load_spec w) as (evs & Heq & Hq)
  end.
  rewrite Heq. cbn [files log]. cbv beta iota.
  destruct (loaded f) as [K|e].
  - rewrite Hs. cbv beta iota. cbn [files log].
    exists ([Print MRule; Print MStarting; Print MRule] ++ evs ++ [Print (MLoaded (len K)); Print MScraping]).
    split.
    + rewrite <- !(assoc_L (++)). reflexivity.
    + apply quiet_app; [done|]. apply quiet_app; done.
  - exists ([Print MRule; Print MStarting; Print MRule] ++ evs).
    split; [reflexivity|]. by apply quiet_app.
Qed.

Lemma run_load_raises o f e :
  loaded f = Exn e →
  ∃ evs, run o f = (Exn e, World (created f) evs) ∧ quiet evs.
Proof.
  intros Hl. exec_main. cbn [files log]. call_spec. rewrite Hl.
  eexists. split; [reflexivity|]. by apply (quiet_app [_; _; _]).
Qed.

(** A run in which the scraper returns postings. The notifier is called
    when there are new postings; [save_known_jobs] is called with the set
    the loop returned unless the notifier raised, which it does only when
    the mail cannot be built. *)
Lemma run_jobs o f K :
  scraped o ≠ [] → loaded f = Val K →
  let d := diff (scraped o) K in
  let r := run o f in
  mails (log r.2) = match new_jobs d with [] => [] | _ => [new_jobs d] end
  ∧ announced (log r.2) = shown_title <$> new_jobs d
  ∧ fetches (log r.2) = 1
  ∧ (saved r (known_jobs d)
     ∨ saves (log r.2) = [] ∧ r.1 = Exn UnicodeEncodeError
       ∧ files r.2 = created f ∧ ¬ buildable (new_jobs d))
  ∧ (buildable (new_jobs d) → saved r (known_jobs d)).
Proof.
  intros Hne Hl. cbv zeta. unfold saved. exec_main. cbn [files log].
  call_spec. rewrite Hl. cbv beta iota. cbn [files log].
  destruct (scraped o) as [|j0 P]; [done|].
  pose proof (diff_printed (j0 :: P) K) as Hp.
  pose proof (announced_title_lines (new_jobs (diff (j0 :: P) K))) as Ha.
  rewrite <- Hp in Ha.
  pose proof (prints_projections (printed (diff (j0 :: P) K))) as (Hp1 & Hp2 & Hp3).
  revert Ha Hp1 Hp2 Hp3. clear Hp.
  generalize (Print <$> printed (diff (j0 :: P) K)).
  generalize (diff (j0 :: P) K). intros d prints Ha Hp1 Hp2 Hp3.
  destruct (new_jobs d) as [|n new] eqn:Hn.
  - call_spec. destruct (sorted (known_jobs d)); cbn [fst snd files log];
      split_and!; try (intros _; split_and!); try (left; split_and!);
      try done; projections; try done.
  - cbv beta iota. cbn [files log]. call_spec. call_spec.
    match goal with
    | H : (∃ b, _ = Val b) ∨ _ |- _ => destruct H as [[[] ->]|[-> Hnb]]
    end.
    + cbv beta iota; cbn [files log]; call_spec;
        destruct (sorted (known_jobs d)); cbn [fst snd files log];
        split_and!; try (intros _; split_and!); try (left; split_and!);
        try done; projections; try done.
    + cbv beta iota; cbn [files log]; call_spec;
        destruct (sorted (known_jobs d)); cbn [fst snd files log];
        split_and!; try (intros _; split_and!); try (left; split_and!);
        try done; projections; try done.
    + cbv beta iota. cbn [fst snd files log]. split_and!.
      * projections. done.
      * projections. done.
      * projections. done.
      * right. split_and!; [|done|done|done]. projections. done.
      * intros Hb. by destruct Hnb.
Qed.

End Run.

(** ** The diff step *)

Section DiffClaims.

Implicit Types (K : pyset) (P : list job) (j : job) (i : string).

(** C1: whatever the known set [K] and the current postings [P], no posting
    in the list of new postings the loop returns carries an identifier that
    was in [K] when the loop started. *)
Theorem diff_never_returns_known K P j i :
  j ∈ new_jobs (diff P K) → j !! "id" = Some i → i ∉ strs K.
Proof. intros Hin Hid. by destruct (diff_new_fresh P K j i Hin Hid). Qed.

Lemma diff_never_returns_known_witness :
  "B" ∉ strs (of_ids {[ "A" ]}).
Proof.
  apply (diff_never_returns_known (of_ids {[ "A" ]}) [job_a; job_b] job_b "B").
  - by_computation.
  - reflexivity.
Defined.

(** C2: the known set the loop returns is [K] together with the
    identifiers of the postings of [P] that have a non-empty one: [K] is
    contained in it, every non-empty identifier of [P] is in it, and an
    element that was not in [K] is the non-empty identifier of a posting
    of [P], so that postings without identifier add nothing. *)
Theorem diff_known_is_union K P :
  known_jobs (diff P K) = PySet (strs K ∪ ids P) (nums K) (none K)
  ∧ strs K ⊆ strs (known_jobs (diff P K))
  ∧ (∀ j i, j ∈ P → j !! "id" = Some i → i ≠ EmptyString →
            i ∈ strs (known_jobs (diff P K)))
  ∧ (∀ i, i ∈ strs (known_jobs (diff P K)) → (i ∉ strs K) →
          ∃ j, j ∈ P ∧ j !! "id" = Some i ∧ i ≠ EmptyString).
Proof.
  rewrite diff_known. simpl. split_and!.
  - done.
  - set_solver.
  - intros j i Hj Hid Hi. apply elem_of_union_r, elem_of_ids. eauto.
  - intros i [Hi|Hi]%elem_of_union Hn; [done|]. by apply elem_of_ids.
Qed.

(** C4: the loop run again on the same postings, with the known set the
    first pass returned, finds no new posting. *)
Theorem diff_twice_finds_nothing K P :
  new_jobs (diff P (known_jobs (diff P K))) = [].
Proof. apply diff_new_nil. rewrite diff_known. simpl. set_solver. Qed.

Lemma classified_new_app K P Q k :
  k < length P → classified_new K (P ++ Q) k = classified_new K P k.
Proof.
  intros Hk. unfold classified_new.
  rewrite lookup_app_l by done. by rewrite take_app_le by lia.
Qed.

Lemma classified_new_last K P j :
  classified_new K (P ++ [j]) (length P)
  = match posting_id j with
    | Some i => bool_decide (i ∉ strs (known_jobs (diff P K)))
    | None => false
    end.
Proof.
  unfold classified_new.
  by rewrite list_lookup_middle, take_app_length by done.
Qed.

(** The test of the loop, spelled out: the identifier is not empty, is not
    in the known set the loop started from, and is carried by no earlier
    posting. *)
Lemma classified_new_spec K P k :
  classified_new K P k ↔
    ∃ j i, P !! k = Some j ∧ j !! "id" = Some i ∧ i ≠ EmptyString
           ∧ (i ∉ strs K) ∧ (i ∉ ids (take k P)).
Proof.
  unfold classified_new. destruct (P !! k) as [j|]; [|naive_solver].
  destruct (posting_id j) as [i|] eqn:E.
  - apply posting_id_Some in E as [E ?]. rewrite diff_known. simpl.
    rewrite bool_decide_spec, not_elem_of_union. naive_solver.
  - split; [done|]. intros (j' & i & [= <-] & Hid & Hi & _).
    assert (posting_id j = Some i) by by apply posting_id_Some.
    congruence.
Qed.

(** C9: the new postings come in the order of the scrape: they are the
    postings of [P] the loop classified as new, by increasing index, and
    so a subsequence of [P]. *)
Theorem diff_new_in_scrape_order K P :
  new_jobs (diff P K) = select_new K P
  ∧ new_jobs (diff P K) `sublist_of` P.
Proof.
  split; [|apply diff_new_sublist].
  unfold select_new. induction P as [|j P IH] using rev_ind; [done|].
  rewrite diff_snoc, diff_body_new, IH, length_app. simpl.
  rewrite Nat.add_1_r, seq_S, omap_app. simpl. f_equal.
  - apply list_omap_ext, Forall2_same_length_lookup. split; [done|].
    intros n k k' Hk Hk'. assert (k' = k) as -> by congruence.
    apply lookup_seq in Hk as [-> Hlt]. simpl.
    rewrite classified_new_app by done. by rewrite lookup_app_l by done.
  - rewrite classified_new_last, list_lookup_middle by done.
    destruct (posting_id j) as [i|]; [|done]. by case_bool_decide.
Qed.

End DiffClaims.

(** ** The store *)

Section StoreClaims.

Implicit Types (K : pyset) (S : gset string) (f : fs) (w : world).

Lemma loaded_eq f :
  loaded f = match stored f with
             | Some (Parsed (PList l)) => set_ (valid_ids l)
             | Some (Unreadable r) => Exn (read_exn r)
             | _ => Val Py.empty
             end.
Proof.
  unfold loaded. destruct f as [|[[|r|v]|]]; try reflexivity.
  { by destruct r. }
  destruct v; try reflexivity. exec. simpl.
  destruct (set_ (valid_ids l)) as [K|e] eqn:E; [done|].
  by apply set_from_raises in E as ->.
Qed.





Lemma valid_ids_str l s :
  PStr s ∈ valid_ids l → s ≠ EmptyString ∧ s ≠ sentinel.
Proof.
  unfold valid_ids. rewrite list_elem_of_In, filter_In. simpl.
  intros [_ [H1 H2]%andb_prop]. split.
  - intros ->. done.
  - intros ->. done.
Qed.


(** The loop never adds the empty identifier. *)
Lemma diff_keeps_nonempty K P :
  (EmptyString ∉ strs K) → EmptyString ∉ strs (known_jobs (diff P K)).
Proof.
  intros HK. rewrite diff_known. simpl. rewrite not_elem_of_union.
  split; [done|]. rewrite elem_of_ids. naive_solver.
Qed.

(** It keeps the sentinel out as long as no posting carries it. *)
Lemma diff_keeps_clean K P :
  clean K → ¬ has_sentinel P → clean (known_jobs (diff P K)).
Proof.
  intros [H1 H2] Hs. split; [by apply diff_keeps_nonempty|].
  rewrite diff_known. simpl. rewrite not_elem_of_union. split; [done|].
  rewrite elem_of_ids. intros (j & ? & ? & _). apply Hs. by exists j.
Qed.

(** C3: the known set is meant to hold no empty and no sentinel
    identifier. The loop breaks this: from the empty set, a scrape of one
    posting whose identifier is the sentinel yields a known set that holds
    the sentinel. *)
Theorem diff_admits_sentinel :
  clean Py.empty
  ∧ known_jobs (diff [job_unknown] Py.empty) = of_ids {[ sentinel ]}
  ∧ ¬ clean (known_jobs (diff [job_unknown] Py.empty)).
Proof.
  assert (known_jobs (diff [job_unknown] Py.empty) = of_ids {[ sentinel ]}) as E.
  { rewrite diff_known. reflexivity. }
  rewrite E. split_and!; [split; set_solver|done|].
  intros [_ Hs]. apply Hs. simpl. set_solver.
Qed.


(** Content on which [json.load] raises [JSONDecodeError], or returns
    something else than a list, is taken as the empty set. *)
Lemma loaded_not_array f :
  (∀ l, stored f ≠ Some (Parsed (PList l))) →
  (∀ r, stored f ≠ Some (Unreadable r)) →
  loaded f = Val Py.empty.
Proof.
  intros Hf Hr. rewrite loaded_eq.
  destruct (stored f) as [[|r|[| | | |l|]]|]; try done.
  - by destruct (Hr r).
  - by destruct (Hf l).
Qed.

Lemma set_from_scalars l K :
  forallb scalar l = true →
  ∃ K', set_from l K = Val K' ∧ ∀ s, s ∈ strs K' ↔ s ∈ strs K ∨ PStr s ∈ l.
Proof.
  revert K. induction l as [|v l IH]; intros K Hl.
  { exists K. split; [done|]. intros s. rewrite elem_of_nil. naive_solver. }
  simpl in Hl. apply andb_prop in Hl as [Hv Hl].
  destruct v as [|b|z|s'|l'|d]; try done; simpl.
  all: match goal with
       | |- context [set_from _ ?K0] =>
           destruct (IH K0 Hl) as (K' & -> & HK')
       end.
  all: exists K'; split; [done|]; intros s; rewrite HK', elem_of_cons.
  - naive_solver.
  - unfold add_num. destruct (nums K !! _); naive_solver.
  - unfold add_num. destruct (nums K !! _); naive_solver.
  - simpl. rewrite elem_of_union, elem_of_singleton. naive_solver.
Qed.

Lemma set_from_unhashable l K :
  forallb scalar l = false → set_from l K = Exn TypeError.
Proof.
  revert K. induction l as [|v l IH]; intros K Hl; [done|].
  simpl in Hl. destruct v; simpl in *; auto.
Qed.

Lemma elem_of_valid_ids l s :
  PStr s ∈ valid_ids l ↔ PStr s ∈ l ∧ s ≠ EmptyString ∧ s ≠ sentinel.
Proof.
  split.
  - intros Hin. split; [|by apply valid_ids_str in Hin].
    revert Hin. unfold valid_ids. rewrite !list_elem_of_In, filter_In.
    by intros [? _].
  - intros (Hin & H1 & H2). unfold valid_ids.
    rewrite list_elem_of_In, filter_In, <- list_elem_of_In. split; [done|].
    simpl. apply String.eqb_neq in H1, H2. unfold sentinel in H2.
    by rewrite H1, H2.
Qed.

(** An array is accepted when the entries that are kept can be put in a
    set; the strings of the result are then the strings of the array
    without the empty and the sentinel one. Otherwise [TypeError] is
    raised. *)
Lemma loaded_array l :
  if forallb scalar (valid_ids l) then
    ∃ K, loaded (Dir (Some (Parsed (PList l)))) = Val K
         ∧ ∀ s, s ∈ strs K ↔ PStr s ∈ l ∧ s ≠ EmptyString ∧ s ≠ sentinel
  else loaded (Dir (Some (Parsed (PList l)))) = Exn TypeError.
Proof.
  rewrite loaded_eq. simpl. unfold set_.
  destruct (forallb scalar (valid_ids l)) eqn:E.
  - destruct (set_from_scalars _ Py.empty E) as (K & -> & HK).
    exists K. split; [done|]. intros s.
    rewrite HK, elem_of_valid_ids. simpl. set_solver.
  - by apply set_from_unhashable.
Qed.

(** C8: a data file that does not parse, or whose root is no array, loads
    to the empty set, and so should any array. The code misses the array
    that holds a non-empty array or object: [set] raises [TypeError] on it
    and [load_known_jobs] lets it through. *)
Theorem load_raises_on_nested_array :
  load_known_jobs (World nested_array [])
  = (Exn TypeError, World nested_array [Call_load_known_jobs]).
Proof. reflexivity. Qed.

End StoreClaims.

(** ** The run *)

Section RunClaims.

Implicit Types (K : pyset) (S : gset string) (f : fs) (o : outside).
Implicit Types (P : list job) (j : job) (i : string).

Lemma stored_created f : stored (created f) = stored f.
Proof. by destruct f. Qed.

(** C6: when the scraper returns no posting, the run calls neither the
    notifier nor [save_known_jobs], the loop announces nothing and the data
    file is as it was; the run returns right after the fetch and the
    diagnostic, which are the last events of its log. The scraper is
    reached when [load_known_jobs] has returned. *)
Theorem empty_fetch_ends_run o f :
  scraped o = [] →
  saves (log (run o f).2) = []
  ∧ mails (log (run o f).2) = []
  ∧ announced (log (run o f).2) = []
  ∧ stored (files (run o f).2) = stored f
  ∧ ∀ K, loaded f = Val K →
      (run o f).1 = Val tt
      ∧ ∃ evs, log (run o f).2
               = evs ++ Call_get_latest_jobs :: no_jobs_diagnostic
               ∧ quiet evs.
Proof.
  intros Hs. destruct (run_no_jobs o f Hs) as (evs & -> & Hq).
  destruct (loaded f) as [K|e]; cbn [fst snd files log].
  - rewrite stored_created. split_and!; try done.
    + projections. done.
    + projections. done.
    + projections. done.
    + intros _ _. split; [done|]. by exists evs.
  - rewrite stored_created. destruct Hq as (? & ? & ? & ?).
    split_and!; done.
Qed.

Lemma empty_fetch_ends_run_witness :
  saves (log (run (Outside [] configured accepting) NoDir).2) = []
  ∧ (run (Outside [] configured accepting) NoDir).1 = Val tt.
Proof.
  destruct (empty_fetch_ends_run (Outside [] configured accepting) NoDir)
    as (Hs & _ & _ & _ & Hr); [reflexivity|].
  split; [exact Hs|]. destruct (Hr Py.empty) as [Hv _]; [reflexivity|].
  exact Hv.
Defined.


Lemma buildable_nil : buildable [].
Proof. done. Qed.

(** C7: a failure of the notifier is meant never to prevent persistence,
    and [send_email] catches every exception of the transport. It misses
    the exception of [MIMEText], which is called before the [try]: on a
    first run with the notifier configured, a scraped posting whose title
    holds a lone surrogate is announced and handed to [send_email], which
    raises [UnicodeEncodeError]; the run ends there, [save_known_jobs] is
    never called and no data file is written. *)
Theorem unencodable_posting_prevents_save :
  scraped failing_notification ≠ []
  ∧ loaded NoDir = Val Py.empty
  ∧ (run failing_notification NoDir).1 = Exn UnicodeEncodeError
  ∧ fetches (log (run failing_notification NoDir).2) = 1
  ∧ mails (log (run failing_notification NoDir).2) = [[job_surrogate]]
  ∧ saves (log (run failing_notification NoDir).2) = []
  ∧ files (run failing_notification NoDir).2 = Dir None.
Proof. split_and!; [done|reflexivity..]. Qed.


(** The first posting that carries such an identifier is the one. *)
Lemma diff_first_unknown pre j post K i :
  j !! "id" = Some i → i ≠ EmptyString → (i ∉ strs K) → (i ∉ ids pre) →
  j ∈ new_jobs (diff (pre ++ j :: post) K).
Proof.
  intros Hid Hi HK Hpre. unfold diff. rewrite foldl_app, foldl_diff_new.
  apply elem_of_app. right. rewrite diff_cons_new.
  assert (posting_id j = Some i) as -> by by apply posting_id_Some.
  rewrite foldl_diff_known. simpl.
  rewrite bool_decide_eq_true_2 by set_solver. apply list_elem_of_here.
Qed.

Lemma elem_of_mails new l : new ∈ mails l ↔ Call_send_email new ∈ l.
Proof.
  unfold mails. rewrite list_elem_of_omap. split.
  - intros (e & He & Heq). destruct e; try done. by injection Heq as ->.
  - intros He. by exists (Call_send_email new).
Qed.









End RunClaims.

(** ** More on the loop over the current postings *)

Section DiffMore.

Implicit Types (K : pyset) (P Q : list job) (j : job) (i : string).

Lemma add_str_known K i : i ∈ strs K → strs (add_str i K) = strs K.
Proof. intros Hi. simpl. set_solver. Qed.

Lemma new_ids_cons_Some j new i :
  posting_id j = Some i → new_ids (j :: new) = i :: new_ids new.
Proof. intros E. unfold new_ids. simpl. by rewrite E. Qed.

Lemma ids_cons_Some j P i :
  posting_id j = Some i → ids (j :: P) = {[ i ]} ∪ ids P.
Proof. intros E. unfold ids. simpl. by rewrite E. Qed.

Lemma ids_cons_None j P : posting_id j = None → ids (j :: P) = ids P.
Proof. intros E. unfold ids. simpl. by rewrite E. Qed.

Lemma length_new_ids new :
  Forall (λ j, is_Some (posting_id j)) new → length (new_ids new) = length new.
Proof.
  induction 1 as [|j new [i Hi] _ IH]; [done|].
  rewrite (new_ids_cons_Some _ _ _ Hi). simpl. by rewrite IH.
Qed.

(** The identifiers of the new postings: each has one, they are pairwise
    distinct, and they are the identifiers of [P] that [K] lacks. *)
Lemma diff_new_ids P K :
  Forall (λ j, is_Some (posting_id j)) (new_jobs (diff P K))
  ∧ NoDup (new_ids (new_jobs (diff P K)))
  ∧ ids (new_jobs (diff P K)) = ids P ∖ strs K.
Proof.
  revert K. induction P as [|j P IH]; intros K.
  { split_and!; [constructor|constructor|]. apply set_eq. intros i.
    rewrite elem_of_difference, !elem_of_ids. setoid_rewrite elem_of_nil.
    naive_solver. }
  rewrite diff_cons_new. destruct (posting_id j) as [i|] eqn:E.
  - rewrite (ids_cons_Some _ _ _ E).
    destruct (IH (add_str i K)) as (Hall & Hnd & Hset).
    change (strs (add_str i K)) with ({[ i ]} ∪ strs K) in Hset.
    clear IH. revert Hall Hnd Hset.
    generalize (new_jobs (diff P (add_str i K))). generalize (ids P).
    intros X new Hall Hnd Hset.
    case_bool_decide as Hi.
    + change ([j] ++ new) with (j :: new).
      rewrite (new_ids_cons_Some _ _ _ E), (ids_cons_Some _ _ _ E), Hset.
      split_and!.
      * constructor; [by eexists|done].
      * constructor; [|done]. intros Hin.
        assert (i ∈ ids new) as Hin' by by apply elem_of_list_to_set.
        rewrite Hset in Hin'. apply elem_of_difference in Hin' as [_ Hn].
        by apply Hn, elem_of_union_l, elem_of_singleton.
      * clear -Hi. apply set_eq. intros x.
        destruct (decide (x = i)) as [->|]; set_solver.
    + change ([] ++ new) with new. rewrite Hset.
      split_and!; [done|done|].
      clear -Hi. apply set_eq. intros x.
      destruct (decide (x = i)) as [->|]; set_solver.
  - rewrite (ids_cons_None _ _ E). apply IH.
Qed.

(** X1: every identifier that is not known yet is reported once: each
    new posting has a non-empty identifier, no two new postings share one,
    the identifiers of the new postings are those of the scrape that the
    known set lacks, and so there are as many new postings as such
    identifiers. *)
Theorem diff_reports_each_unknown_once P K :
  Forall (λ j, ∃ i, j !! "id" = Some i ∧ i ≠ EmptyString) (new_jobs (diff P K))
  ∧ NoDup (new_ids (new_jobs (diff P K)))
  ∧ ids (new_jobs (diff P K)) = ids P ∖ strs K
  ∧ length (new_jobs (diff P K)) = size (ids P ∖ strs K).
Proof.
  destruct (diff_new_ids P K) as (Hall & Hnd & Hset). split_and!.
  - eapply Forall_impl; [exact Hall|]. intros j [i Hi].
    exists i. by apply posting_id_Some.
  - done.
  - done.
  - rewrite <- Hset, <- (length_new_ids _ Hall). unfold ids.
    by rewrite size_list_to_set.
Qed.

(** X2: a scrape handled in two batches gives what it gives in one: the
    second batch starts from the known set the first one returned, and
    the new postings and the printed lines follow each other. *)
Theorem diff_in_batches P Q K :
  new_jobs (diff (P ++ Q) K)
  = new_jobs (diff P K) ++ new_jobs (diff Q (known_jobs (diff P K)))
  ∧ known_jobs (diff (P ++ Q) K) = known_jobs (diff Q (known_jobs (diff P K)))
  ∧ printed (diff (P ++ Q) K)
    = printed (diff P K) ++ printed (diff Q (known_jobs (diff P K))).
Proof.
  assert (new_jobs (diff (P ++ Q) K)
          = new_jobs (diff P K) ++ new_jobs (diff Q (known_jobs (diff P K))))
    as Hnew.
  { unfold diff at 1. rewrite foldl_app. apply foldl_diff_new. }
  split_and!.
  - done.
  - rewrite !diff_known. cbn [strs nums none]. f_equal. unfold ids.
    rewrite omap_app, list_to_set_app_L.
    generalize (list_to_set (omap posting_id P) : gset string).
    generalize (list_to_set (omap posting_id Q) : gset string).
    intros X Y. set_solver.
  - by rewrite !diff_printed, Hnew, fmap_app.
Qed.

(** X3: a larger known set never makes more postings new: the new
    postings for it are a subsequence of the new postings for the smaller
    one. *)
Theorem diff_new_antitone P K K' :
  strs K ⊆ strs K' →
  new_jobs (diff P K') `sublist_of` new_jobs (diff P K).
Proof.
  revert K K'. induction P as [|j P IH]; intros K K' Hsub; [done|].
  rewrite !diff_cons_new. destruct (posting_id j) as [i|]; [|by apply IH].
  assert (new_jobs (diff P (add_str i K'))
            `sublist_of` new_jobs (diff P (add_str i K))) as Hrest.
  { apply IH. change (strs (add_str i K)) with ({[ i ]} ∪ strs K).
    change (strs (add_str i K')) with ({[ i ]} ∪ strs K').
    apply union_mono_l, Hsub. }
  revert Hrest. generalize (new_jobs (diff P (add_str i K'))).
  generalize (new_jobs (diff P (add_str i K))). intros l l' Hrest.
  destruct (decide (i ∈ strs K')) as [Hi'|Hi'];
    destruct (decide (i ∈ strs K)) as [Hi|Hi].
  - by rewrite !bool_decide_eq_false_2 by (intros Hn; by apply Hn).
  - rewrite (bool_decide_eq_false_2 (i ∉ strs K')) by (intros Hn; by apply Hn).
    rewrite (bool_decide_eq_true_2 (i ∉ strs K)) by done.
    by apply sublist_cons.
  - destruct Hi'. by apply Hsub.
  - rewrite !bool_decide_eq_true_2 by done. by apply sublist_skip.
Qed.

Lemma diff_new_antitone_witness :
  new_jobs (diff [job_a; job_b] (of_ids {[ "A"; "B" ]}))
    `sublist_of` new_jobs (diff [job_a; job_b] (of_ids {[ "A" ]})).
Proof.
  apply diff_new_antitone. apply (bool_decide_unpack _). vm_compute. exact I.
Defined.

Lemma ids_Permutation P Q : P ≡ₚ Q → ids P = ids Q.
Proof.
  intros HP. apply set_eq. intros i. rewrite !elem_of_ids.
  by setoid_rewrite HP.
Qed.

(** X4: the order of the scrape matters neither for the known set the
    loop returns nor for the number of new postings. *)
Theorem diff_order_irrelevant P Q K :
  P ≡ₚ Q →
  known_jobs (diff P K) = known_jobs (diff Q K)
  ∧ length (new_jobs (diff P K)) = length (new_jobs (diff Q K)).
Proof.
  intros HP. pose proof (ids_Permutation P Q HP) as Hids. split.
  - by rewrite !diff_known, Hids.
  - destruct (diff_new_ids P K) as (HallP & HndP & HsetP).
    destruct (diff_new_ids Q K) as (HallQ & HndQ & HsetQ).
    rewrite <- (length_new_ids _ HallP), <- (length_new_ids _ HallQ).
    rewrite <- (size_list_to_set (C:=gset string) _ HndP).
    rewrite <- (size_list_to_set (C:=gset string) _ HndQ).
    change (size (ids (new_jobs (diff P K))) = size (ids (new_jobs (diff Q K)))).
    by rewrite HsetP, HsetQ, Hids.
Qed.

Lemma diff_order_irrelevant_witness :
  known_jobs (diff [job_a; job_b] Py.empty)
  = known_jobs (diff [job_b; job_a] Py.empty).
Proof.
  apply diff_order_irrelevant. apply Permutation_swap.
Defined.

(** X5: when every posting has a non-empty identifier, no two postings
    share one and none is known, every posting is new. *)
Theorem diff_all_new P K :
  Forall (λ j, is_Some (posting_id j)) P →
  NoDup (new_ids P) →
  ids P ## strs K →
  new_jobs (diff P K) = P.
Proof.
  revert K. induction P as [|j P IH]; intros K Hall Hnd Hdis; [done|].
  apply Forall_cons in Hall as [[i Hi] Hall].
  rewrite (new_ids_cons_Some _ _ _ Hi) in Hnd.
  rewrite (ids_cons_Some _ _ _ Hi) in Hdis.
  apply NoDup_cons in Hnd as [Hfresh Hnd].
  assert (i ∉ ids P) as Hfresh'.
  { intros Hin. apply Hfresh. by apply elem_of_list_to_set in Hin. }
  rewrite diff_cons_new, Hi.
  rewrite bool_decide_eq_true_2 by set_solver.
  change ([j] ++ ?l) with (j :: l). f_equal.
  apply IH; [done|done|].
  change (strs (add_str i K)) with ({[ i ]} ∪ strs K).
  revert Hdis Hfresh'. generalize (ids P). intros X Hdis Hfresh'. set_solver.
Qed.

Lemma diff_all_new_witness :
  new_jobs (diff [job_a; job_b] Py.empty) = [job_a; job_b].
Proof.
  apply diff_all_new.
  - repeat constructor; by eexists.
  - apply (bool_decide_unpack _). vm_compute. exact I.
  - apply (bool_decide_unpack _). vm_compute. exact I.
Defined.

End DiffMore.

(** ** More on the store *)

Section StoreMore.

Implicit Types (K : pyset) (S : gset string) (f : fs) (w : world).

(** X6: [ensure_data_dir] makes the directory when it is missing and does
    nothing otherwise: after it the directory exists, the data file is as
    it was, a second call changes and prints nothing, and so does a call
    on files that have the directory. *)
Theorem ensure_data_dir_once w :
  (ensure_data_dir w).1 = Val tt
  ∧ files (ensure_data_dir w).2 ≠ NoDir
  ∧ stored (files (ensure_data_dir w).2) = stored (files w)
  ∧ ensure_data_dir (ensure_data_dir w).2 = (Val tt, (ensure_data_dir w).2)
  ∧ (files w ≠ NoDir → ensure_data_dir w = (Val tt, w)).
Proof. destruct w as [[|d] l]; exec; cbn [fst snd files log stored]; done. Qed.

Lemma loaded_created f : loaded (created f) = loaded f.
Proof. by rewrite !loaded_eq, stored_created. Qed.

Lemma load_smtp_steps w :
  smtp_steps (log (load_known_jobs w).2) = smtp_steps (log w).
Proof.
  assert (∀ evs, Forall (λ e, match e with Smtp _ => False | _ => True end) evs →
                 smtp_steps (log w ++ evs) = smtp_steps (log w)) as Hno.
  { intros evs Hall. unfold smtp_steps. rewrite omap_app.
    induction Hall as [|e evs He _ IH]; [by rewrite app_nil_r|].
    destruct e; try done; exact IH. }
  destruct w as [[|[[|r|v]|]] l]; exec; cbn [snd log].
  - rewrite <- !(assoc_L (++)). apply (Hno [_; _; _]). by repeat constructor.
  - rewrite <- !(assoc_L (++)). apply (Hno [_; _]). by repeat constructor.
  - destruct r; cbn [snd log]; apply (Hno [_]); by repeat constructor.
  - destruct v; cbn [snd log]; try (apply (Hno [_]); by repeat constructor).
    destruct (set_ (valid_ids l0)) as [K|e] eqn:E; cbn [snd log].
    + apply (Hno [_]); by repeat constructor.
    + apply set_from_raises in E as ->. cbn [snd log].
      apply (Hno [_]); by repeat constructor.
  - apply (Hno [_]); by repeat constructor.
Qed.

(** X7: [load_known_jobs] only reads the data file: the file is as it
    was; the calls of [save_known_jobs], of the notifier, of the scraper
    and of the SMTP server in the log and the lines of the loop are as
    they were; and a second load returns what the first returned. *)
Theorem load_only_reads w :
  stored (files (load_known_jobs w).2) = stored (files w)
  ∧ saves (log (load_known_jobs w).2) = saves (log w)
  ∧ mails (log (load_known_jobs w).2) = mails (log w)
  ∧ fetches (log (load_known_jobs w).2) = fetches (log w)
  ∧ smtp_steps (log (load_known_jobs w).2) = smtp_steps (log w)
  ∧ announced (log (load_known_jobs w).2) = announced (log w)
  ∧ (load_known_jobs (load_known_jobs w).2).1 = (load_known_jobs w).1.
Proof.
  pose proof (load_smtp_steps w) as Hsmtp.
  destruct (load_spec w) as (evs & E & Hq). rewrite E in *.
  cbn [fst snd files log] in *.
  destruct (load_spec (World (created (files w)) (log w ++ evs)))
    as (evs' & -> & _).
  cbn [fst snd files log]. rewrite stored_created, loaded_created.
  destruct Hq as (Hs & Hm & Hf & Ha). unfold saves, mails, fetches, announced in *.
  rewrite !omap_app, length_app, Hs, Hm, Hf, Ha, !app_nil_r, Nat.add_0_r.
  done.
Qed.

(** X8: the warning that the data file could not be parsed is printed
    exactly when there is a data file and [json.load] raises
    [JSONDecodeError] on it; [load_known_jobs] then returns the empty
    set. When [json.load] raises another exception, no warning is printed
    and [load_known_jobs] raises that exception. *)
Theorem load_warns_iff_unparsable f :
  (Print MCouldNotParse ∈ log (load_known_jobs (World f [])).2
   ↔ stored f = Some Unparsable)
  ∧ (stored f = Some Unparsable → loaded f = Val Py.empty)
  ∧ (∀ r, stored f = Some (Unreadable r) →
          loaded f = Exn (read_exn r) ∧ read_exn r ≠ JSONDecodeError).
Proof.
  split_and!;
    [|intros Hf; rewrite loaded_eq; by rewrite Hf
     |intros r Hf; rewrite loaded_eq, Hf; split; [done|by destruct r]].
  destruct f as [|[[|r|v]|]]; cbn [stored].
  - exec. cbn [app snd]. rewrite !elem_of_cons, elem_of_nil. naive_solver.
  - exec. cbn [app snd]. rewrite !elem_of_cons, elem_of_nil. naive_solver.
  - destruct r; exec; cbn [app snd log];
      rewrite !elem_of_cons, elem_of_nil; naive_solver.
  - assert (Print MCouldNotParse ∉ log (load_known_jobs
              (World (Dir (Some (Parsed v))) [])).2) as Hn.
    { destruct v; exec; cbn [app snd log];
        try (rewrite !elem_of_cons, elem_of_nil; naive_solver).
      destruct (set_ (valid_ids l)) as [K|e] eqn:E.
      - cbn [snd log]. rewrite !elem_of_cons, elem_of_nil. naive_solver.
      - apply set_from_raises in E as ->. cbn [snd log].
        rewrite !elem_of_cons, elem_of_nil. naive_solver. }
    split; [done|by intros [=]].
  - exec. cbn [app snd]. rewrite !elem_of_cons, elem_of_nil. naive_solver.
Qed.

Lemma load_warns_iff_unparsable_witness :
  loaded (Dir (Some Unparsable)) = Val Py.empty.
Proof.
  destruct (load_warns_iff_unparsable (Dir (Some Unparsable)))
    as (_ & H & _).
  apply H. reflexivity.
Defined.

Lemma elem_of_valid_ids_iff v l :
  v ∈ valid_ids l ↔ v ∈ l ∧ truthy v = true ∧ ne_str v "unknown_id" = true.
Proof.
  unfold valid_ids. rewrite !list_elem_of_In, filter_In, andb_true_iff.
  done.
Qed.

Lemma add_num_dom z b K z' :
  is_Some (nums (add_num z b K) !! z') ↔ is_Some (nums K !! z') ∨ z' = z.
Proof.
  unfold add_num. destruct (nums K !! z) as [b'|] eqn:E.
  - split; [by left|]. intros [?| ->]; [done|]. by rewrite E.
  - cbn [nums]. rewrite lookup_insert_is_Some.
    destruct (decide (z = z')); naive_solver.
Qed.

(** What [set] has put in the set it returns. *)
Lemma set_from_inv l K K' :
  set_from l K = Val K' →
  (∀ s, s ∈ strs K' ↔ s ∈ strs K ∨ PStr s ∈ l)
  ∧ (∀ z, is_Some (nums K' !! z) ↔
            is_Some (nums K !! z) ∨ PInt z ∈ l
            ∨ ∃ b : bool, PBool b ∈ l ∧ z = (if b then 1 else 0)%Z)
  ∧ (none K' = true ↔ none K = true ∨ PNone ∈ l).
Proof.
  revert K. induction l as [|v l IH]; intros K.
  { intros [= ->]. split_and!; intros; rewrite ?elem_of_nil;
      try setoid_rewrite elem_of_nil; naive_solver. }
  simpl. destruct v as [|b|z0|s0|l0|d0]; try done; cbn [add]; intros E;
    destruct (IH _ E) as (Hs & Hn & Hnone); clear IH E.
  - split_and!.
    + intros s. rewrite Hs, elem_of_cons. cbn [strs]. naive_solver.
    + intros z. rewrite Hn, elem_of_cons. cbn [nums].
      setoid_rewrite elem_of_cons. naive_solver.
    + rewrite Hnone, elem_of_cons. cbn [none]. naive_solver.
  - split_and!.
    + intros s. rewrite Hs, elem_of_cons.
      unfold add_num. destruct (nums K !! _); cbn [strs]; naive_solver.
    + intros z. rewrite Hn, add_num_dom, elem_of_cons.
      setoid_rewrite elem_of_cons. split.
      * intros [[?| ->]|[?|(b' & ? & ->)]]; eauto 6.
      * intros [?|[[[=]|?]|(b' & [[= ->]|?] & ->)]]; eauto 6.
    + rewrite Hnone, elem_of_cons.
      unfold add_num. destruct (nums K !! _); cbn [none]; naive_solver.
  - split_and!.
    + intros s. rewrite Hs, elem_of_cons.
      unfold add_num. destruct (nums K !! _); cbn [strs]; naive_solver.
    + intros z. rewrite Hn, add_num_dom, elem_of_cons.
      setoid_rewrite elem_of_cons. split.
      * intros [[?| ->]|[?|(b' & ? & ->)]]; eauto 6.
      * intros [?|[[[= ->]|?]|(b' & [[=]|?] & ->)]]; eauto 6.
    + rewrite Hnone, elem_of_cons.
      unfold add_num. destruct (nums K !! _); cbn [none]; naive_solver.
  - split_and!.
    + intros s. rewrite Hs, elem_of_cons. cbn [strs add_str].
      rewrite elem_of_union, elem_of_singleton. naive_solver.
    + intros z. rewrite Hn, elem_of_cons. cbn [nums add_str].
      setoid_rewrite elem_of_cons. naive_solver.
    + rewrite Hnone, elem_of_cons. cbn [none add_str]. naive_solver.
Qed.

Lemma forallb_scalar_false l :
  forallb scalar l = false ↔ ∃ v, v ∈ l ∧ scalar v = false.
Proof.
  induction l as [|v l IH]; simpl.
  { split; [done|]. intros (v & Hv & _). by apply elem_of_nil in Hv. }
  rewrite andb_false_iff, IH. setoid_rewrite elem_of_cons. naive_solver.
Qed.

(** X9: when [json.load] returns a list, [load_known_jobs] raises exactly
    when the list holds a non-empty list or dict, and what it raises is
    [TypeError]; an empty list or dict in it is dropped like any other
    falsy entry. *)
Theorem load_array_raises_iff l :
  (loaded (Dir (Some (Parsed (PList l)))) = Exn TypeError
   ↔ ∃ v, v ∈ l ∧ truthy v = true ∧ scalar v = false)
  ∧ (∀ e, loaded (Dir (Some (Parsed (PList l)))) = Exn e → e = TypeError).
Proof.
  rewrite loaded_eq. cbn [stored]. unfold set_. split.
  - destruct (forallb scalar (valid_ids l)) eqn:E.
    + destruct (set_from_scalars _ Py.empty E) as (K & -> & _).
      split; [done|]. intros (v & Hv & Ht & Hs).
      assert (forallb scalar (valid_ids l) = false) as E'; [|congruence].
      apply forallb_scalar_false. exists v. split; [|done].
      apply elem_of_valid_ids_iff. split_and!; [done|done|by destruct v].
    + rewrite (set_from_unhashable _ _ E). split; [intros _|done].
      apply forallb_scalar_false in E as (v & Hv & Hs).
      apply elem_of_valid_ids_iff in Hv as (? & ? & _). by exists v.
  - intros e. apply set_from_raises.
Qed.

(** X10: the set [load_known_jobs] returns when [json.load] has returned
    a list without floating point numbers: its strings are the strings of
    the list except the empty one and the sentinel, its numbers are the
    integers of the list except zero, with one for [True], and [None] is
    not in it. *)
Theorem load_array_contents l K :
  loaded (Dir (Some (Parsed (PList l)))) = Val K →
  (∀ s, s ∈ strs K ↔ PStr s ∈ l ∧ s ≠ EmptyString ∧ s ≠ sentinel)
  ∧ (∀ z, is_Some (nums K !! z) ↔
            (PInt z ∈ l ∧ z ≠ 0%Z) ∨ (PBool true ∈ l ∧ z = 1%Z))
  ∧ none K = false.
Proof.
  rewrite loaded_eq. cbn [stored]. unfold set_. intros E.
  destruct (set_from_inv _ _ _ E) as (Hs & Hn & Hnone). split_and!.
  - intros s. rewrite Hs, elem_of_valid_ids. cbn [strs Py.empty].
    rewrite elem_of_empty. naive_solver.
  - intros z. rewrite Hn. cbn [nums Py.empty]. rewrite lookup_empty.
    rewrite !elem_of_valid_ids_iff.
    setoid_rewrite elem_of_valid_ids_iff. cbn [truthy ne_str].
    rewrite negb_true_iff, Z.eqb_neq. split.
    + intros [[? [=]]|[(? & ? & _)|(b & (? & -> & _) & ->)]]; eauto.
    + intros [[? ?]|[? ->]]; [by right; left|].
      right; right. by exists true.
  - destruct (none K) eqn:En; [|done].
    destruct Hnone as [Hnone _]. destruct (Hnone eq_refl) as [[=]|Hin].
    by apply elem_of_valid_ids_iff in Hin as (_ & [=] & _).
Qed.

Lemma load_array_contents_witness :
  "A" ∈ ({[ "A" ]} : gset string)
  ↔ PStr "A" ∈ [PStr "A"; PStr "unknown_id"; PInt 0; PList []]
    ∧ "A" ≠ EmptyString ∧ "A" ≠ sentinel.
Proof.
  destruct (load_array_contents
              [PStr "A"; PStr "unknown_id"; PInt 0; PList []]
              (of_ids {[ "A" ]})) as (H & _ & _); [|exact (H "A")].
  vm_compute. reflexivity.
Defined.

Lemma str_compare_lt_trans (a b c : string) :
  String.compare a b = Lt → String.compare b c = Lt → String.compare a c = Lt.
Proof.
  revert b c. induction a as [|x a IH]; intros [|y b] [|z c]; simpl; try done.
  destruct (Ascii.compare x y) eqn:Exy, (Ascii.compare y z) eqn:Eyz;
    try done.
  - apply Ascii.compare_eq_iff in Exy as ->. rewrite Eyz. apply IH.
  - apply Ascii.compare_eq_iff in Exy as ->. by rewrite Eyz.
  - apply Ascii.compare_eq_iff in Eyz as <-. by rewrite Exy.
  - intros _ _. unfold Ascii.compare in *.
    apply N.compare_lt_iff in Exy, Eyz.
    assert (N.compare (Ascii.N_of_ascii x) (Ascii.N_of_ascii z) = Lt) as ->;
      [|done].
    apply N.compare_lt_iff. by eapply N.lt_trans.
Qed.

Global Instance str_le_total : Total str_le.
Proof.
  intros a b. unfold str_le.
  destruct (String.leb_total a b) as [-> | ->]; [by left|by right].
Qed.

Global Instance str_le_trans : Transitive str_le.
Proof.
  intros a b c. unfold str_le, String.leb.
  destruct (String.compare a b) eqn:Eab; [| |done].
  - apply String.compare_eq_iff in Eab as ->. done.
  - destruct (String.compare b c) eqn:Ebc; [| |done].
    + apply String.compare_eq_iff in Ebc as <-. by rewrite Eab.
    + by rewrite (str_compare_lt_trans _ _ _ Eab Ebc).
Qed.


(** X12: when the set holds a string and a number, [sorted] raises
    [TypeError] after the data file has been opened for writing: the call
    raises, the file is left empty, and the next [load_known_jobs] returns
    the empty set. *)
Theorem save_failure_empties_file K w :
  strs K ≠ ∅ → nums K ≠ ∅ →
  (save_known_jobs K w).1 = Exn TypeError
  ∧ files (save_known_jobs K w).2 = Dir (Some Unparsable)
  ∧ loaded (files (save_known_jobs K w).2) = Val Py.empty.
Proof.
  intros Hs Hn.
  assert (sorted K = Exn TypeError) as E.
  { unfold sorted. destruct (none K).
    - rewrite bool_decide_eq_false_2; [done|]. by intros [? _].
    - by rewrite !bool_decide_eq_false_2. }
  destruct (save_spec K w) as (evs & -> & _). rewrite E.
  cbn [fst snd files]. done.
Qed.

Lemma save_failure_empties_file_witness :
  (save_known_jobs mixed (World NoDir [])).1 = Exn TypeError.
Proof.
  apply (save_failure_empties_file mixed (World NoDir []));
    apply (bool_decide_unpack _); vm_compute; exact I.
Defined.

End StoreMore.

(** ** More on the notifier *)

(** Follow [send_email] along every path: the three variables, the body
    of the mail, then each call of the server. *)
Ltac send_email_paths o :=
  cbv [send_email mime_text smtp try_ raise emit print
       mbind M_bind mret M_ret];
  cbn [files log];
  destruct (getenv o "EMAIL_ADDRESS") as [?a|] eqn:?;
    [destruct (getenv o "EMAIL_PASSWORD") as [?p|] eqn:?;
       [destruct (getenv o "NOTIFY_EMAIL") as [?r|] eqn:?|]|];
  try match goal with
  | |- context [existsb unencodable ?c] =>
      destruct (existsb unencodable c) eqn:?
  end;
  repeat match goal with
  | |- context [server o ?s] => destruct (server o s) as [[]|] eqn:?
  end;
  cbn [fst snd files log].

(** Read the calls of the server off a log built by appending. *)
Ltac smtp_calls :=
  unfold smtp_steps; rewrite ?omap_app; cbn [omap list_omap app];
  rewrite <- ?(assoc_L (++)); cbn [app]; rewrite ?app_nil_r.

Section NotifierMore.

Implicit Types (o : outside) (new : list job) (w : world) (a p r : string).

(** X13: when one of the three variables is missing or empty,
    [send_email] returns [False] without calling the server: it only
    prints which variable is missing. *)
Theorem send_email_unconfigured o new w :
  getenv o "EMAIL_ADDRESS" = None ∨ getenv o "EMAIL_PASSWORD" = None
  ∨ getenv o "NOTIFY_EMAIL" = None →
  (send_email o new w).1 = Val false
  ∧ files (send_email o new w).2 = files w
  ∧ ∃ name, getenv o name = None
            ∧ log (send_email o new w).2
              = log w ++ [Call_send_email new; Print (MMissingVariable name)].
Proof.
  intros Hmiss. send_email_paths o;
    try (split_and!; [done|done|];
         eexists; split; [eassumption|]; by rewrite <- (assoc_L (++))).
  all: exfalso; destruct Hmiss as [?|[?|?]]; congruence.
Qed.

Lemma send_email_unconfigured_witness :
  (send_email (Outside [job_a] ∅ accepting) [job_a] (World NoDir [])).1
  = Val false.
Proof.
  apply (send_email_unconfigured (Outside [job_a] ∅ accepting)).
  left. reflexivity.
Defined.




(** X16: a mail is handed to the server only on a connection that was
    opened, secured and logged in: if [sendmail] is among the calls, the
    three variables are set, the mail is the one built for the new
    postings, and connect, STARTTLS and login did not raise. *)
Theorem sendmail_only_after_login o new f msg :
  SSendmail msg ∈ smtp_steps (log (send_email o new (World f [])).2) →
  ∃ a p r,
    configured_as o a p r ∧ msg = mail_for a r new
    ∧ server o SConnect = None ∧ server o SStartTls = None
    ∧ server o (SLogin a p) = None.
Proof.
  unfold configured_as, mail_for. send_email_paths o; smtp_calls;
    rewrite ?elem_of_cons, elem_of_nil; intros Hin;
    repeat (destruct Hin as [Hin|Hin]; try discriminate Hin); try done;
    injection Hin as ->; eexists _, _, _;
    split_and!; (reflexivity || eassumption).
Qed.

Lemma sendmail_only_after_login_witness :
  ∃ a p r,
    configured_as (Outside [job_a] configured accepting) a p r
    ∧ mail_for "bot@example.org" "me@example.org" [job_a] = mail_for a r [job_a]
    ∧ accepting SConnect = None ∧ accepting SStartTls = None
    ∧ accepting (SLogin a p) = None.
Proof.
  apply (sendmail_only_after_login (Outside [job_a] configured accepting)
           [job_a] NoDir).
  vm_compute. do 3 apply list_elem_of_further. apply list_elem_of_here.
Defined.

(** X17: when the mail can be built and only [quit] raises, [send_email]
    returns [False] although the mail has been handed to the server. *)
Theorem send_email_false_after_delivery o new w a p r e :
  configured_as o a p r → buildable new →
  server o SConnect = None → server o SStartTls = None →
  server o (SLogin a p) = None →
  server o (SSendmail (mail_for a r new)) = None →
  server o SQuit = Some e →
  (send_email o new w).1 = Val false
  ∧ smtp_steps (log (send_email o new w).2)
    = smtp_steps (log w)
      ++ [SConnect; SStartTls; SLogin a p; SSendmail (mail_for a r new); SQuit].
Proof.
  intros (Ha & Hp & Hr) Hb H1 H2 H3 H4 H5. unfold mail_for, buildable in *.
  cbv [send_email mime_text smtp try_ raise emit print mbind M_bind mret M_ret].
  cbn [files log]. rewrite Ha, Hp, Hr. cbn [files log]. rewrite Hb.
  rewrite H1, H2, H3, H4, H5. destruct e; cbn [fst snd files log];
    (split; [done|]); smtp_calls; done.
Qed.

Lemma send_email_false_after_delivery_witness :
  (send_email
     (Outside [job_a] configured
        (λ s, match s with SQuit => Some SMTPException | _ => None end))
     [job_a] (World NoDir [])).1 = Val false.
Proof.
  eapply (send_email_false_after_delivery _ [job_a] (World NoDir [])
            "bot@example.org" "secret" "me@example.org" SMTPException);
    repeat split.
Defined.

End NotifierMore.

(** ** More on the run *)

Section RunMore.

Implicit Types (K : pyset) (S : gset string) (f : fs) (o : outside).

(** The three ways a run goes: [load_known_jobs] raises, the scraper
    returns nothing, or the loop runs. *)
Lemma run_cases o f :
  (∃ e evs, loaded f = Exn e
            ∧ run o f = (Exn e, World (created f) evs) ∧ quiet evs)
  ∨ (∃ K evs, loaded f = Val K ∧ scraped o = []
              ∧ run o f
                = (Val tt, World (created f)
                             (evs ++ Call_get_latest_jobs :: no_jobs_diagnostic))
              ∧ quiet evs)
  ∨ (∃ K, loaded f = Val K ∧ scraped o ≠ []).
Proof.
  destruct (loaded f) as [K|e] eqn:Hl.
  - destruct (scraped o) as [|j P] eqn:Hs.
    + right; left. destruct (run_no_jobs o f Hs) as (evs & E & Hq).
      rewrite Hl in E. by exists K, evs.
    + right; right. by exists K.
  - left. destruct (run_load_raises o f e Hl) as (evs & E & Hq).
    by exists e, evs.
Qed.

(** X18: in a run the scraper is called at most once, the notifier at
    most once and never with an empty list, and [save_known_jobs] at most
    once and only after the scraper has returned postings. *)
Theorem run_calls_at_most_once o f :
  fetches (log (run o f).2) ≤ 1
  ∧ length (mails (log (run o f).2)) ≤ 1
  ∧ ([] ∉ mails (log (run o f).2))
  ∧ length (saves (log (run o f).2)) ≤ 1
  ∧ (saves (log (run o f).2) ≠ [] →
       fetches (log (run o f).2) = 1 ∧ scraped o ≠ []).
Proof.
  destruct (run_cases o f)
    as [(e & evs & _ & -> & Hq)|[(K & evs & _ & _ & -> & Hq)|(K & Hl & Hne)]].
  - cbn [snd log]. destruct Hq as (-> & -> & -> & _). cbn [length].
    split_and!; try done; try lia. apply not_elem_of_nil.
  - cbn [snd log]. unfold no_jobs_diagnostic. projections. cbn [length].
    split_and!; try done; try lia. apply not_elem_of_nil.
  - destruct (run_jobs o f K Hne Hl) as (-> & _ & -> & Hsv & _).
    assert (length (saves (log (run o f).2)) ≤ 1) as Hlen.
    { destruct Hsv as [[-> _]|[-> _]]; cbn [length]; lia. }
    destruct (new_jobs (diff (scraped o) K)) as [|j new]; cbn [length];
      split_and!; try done; try lia.
    + apply not_elem_of_nil.
    + rewrite list_elem_of_singleton. done.
Qed.










End RunMore.
